(** * example.go: a shallow embedding of the Go syntax-coverage example

    The file [repo_parse/parser/example/example.go] declares a handful of
    types, six functions and methods, and a [main] that prints what they
    return.  This development embeds them in Rocq:

    - Go's [int] is a two's-complement machine integer whose width depends
      on the target; it is a [Z] together with an explicit [wrap];
    - Go's [string] is a byte sequence, here [string];
    - addressable variables ([p] in [main], the captured [sum] of [adder])
      live in a store indexed by locations, a pointer is an optional
      location ([None] is [nil]);
    - code that touches the store or prints runs in a state-and-panic
      monad [M];
    - lines 107-113 of [main] (goroutine and wait-group) are a step
      relation over all interleavings;
    - the declarations and the call sites are also kept as data, to
      compute method sets and to look at every callee;
    - [main] is embedded in the three statement sequences that type-check
      (lines 81-96, 107-113, 116-119); lines 99, 100 and 104 do not, and
      are given no behaviour. *)

From Stdlib Require Import ZArith Lia.
From stdpp Require Import base option list strings gmap fin_maps relations.

Local Open Scope string_scope.
Local Open Scope Z_scope.

(** ** Machine integers *)

(** The width of [int] is fixed by the compilation target: 32 or 64 bits. *)
Inductive arch := Int32 | Int64.

Definition int_bits (a : arch) : Z :=
  match a with Int32 => 32 | Int64 => 64 end.

Definition int_min (a : arch) : Z := - 2 ^ (int_bits a - 1).
Definition int_max (a : arch) : Z := 2 ^ (int_bits a - 1) - 1.

(** Two's-complement reduction into [int_min a .. int_max a]. *)
Definition wrap (a : arch) (z : Z) : Z :=
  (z - int_min a) mod 2 ^ int_bits a + int_min a.

Definition iadd (a : arch) (x y : Z) : Z := wrap a (x + y).
Definition imul (a : arch) (x y : Z) : Z := wrap a (x * y).

Definition in_range (a : arch) (z : Z) : Prop := int_min a ≤ z ≤ int_max a.

(** ** Declared types (lines 19-32) *)

Record Address := mkAddress { City : string; State : string }.

Record Person := mkPerson {
  Name : string;
  Age : Z;
  Person_Address : Address  (* embedded field *)
}.

(** [type MyInt Address]: a defined type with [Address] as underlying type. *)
Definition MyInt := Address.

(** Package-level variables (lines 14-17). *)
Definition name : string := "Go".
Definition age : Z := 10.

(** Locations of addressable variables; a pointer is [nil] or a location. *)
Definition loc := positive.
Definition ptr := option loc.
Definition nil : ptr := None.

(** ** Functions without side effects (lines 46-62) *)

Definition greet (name : string) : string := "Hello, " +:+ name.

(** [Haha] takes two [*Reader] and returns the first one untouched. *)
Definition Haha (name niu : ptr) : ptr := name.

Definition swap (x y : Z) : Z * Z := (y, x).

(** Value receiver: the method works on a copy of the struct. *)
Definition Person_greet (p : Person) : string := "Hello, " +:+ Name p.

(** ** Store, console and the monad of stateful code *)

(** What [fmt.Println] receives: its operands, before formatting. *)
Inductive value := VStr (s : string) | VInt (z : Z).

(** Effects a Go program can have on the world outside its own memory. *)
Inductive effect :=
  | Console (operands : list value)   (* one [fmt.Println] call *)
  | FileIO (path : string)
  | NetworkIO (address : string).

Record state := mkState {
  persons : gmap loc Person;   (* addressable [Person] variables *)
  cells : gmap loc Z;          (* [int] variables captured by closures *)
  trace : list effect          (* effects so far, oldest first *)
}.

Definition empty_state : state := mkState ∅ ∅ [].

Inductive result (A : Type) :=
  | Ok (x : A) (σ : state)
  | Panic (msg : string)
  | OutOfFuel.
Arguments Ok {A} x σ.
Arguments Panic {A} msg.
Arguments OutOfFuel {A}.

Definition M (A : Type) : Type := state → result A.

#[export] Instance M_ret : MRet M := λ A x σ, Ok x σ.
#[export] Instance M_bind : MBind M := λ A B k m σ,
  match m σ with
  | Ok x σ' => k x σ'
  | Panic msg => Panic msg
  | OutOfFuel => OutOfFuel
  end.

Definition nil_dereference : string :=
  "invalid memory address or nil pointer dereference".

(** [fmt.Println(operands...)]; its [(n int, err error)] is dropped by
    every caller in the file. *)
Definition Println (operands : list value) : M unit := λ σ,
  Ok tt (mkState (persons σ) (cells σ) (trace σ ++ [Console operands])).


(** [*p] for [p : *Person].  A location outside the store is not a Go
    value; it is treated like [nil]. *)
Definition load_Person (p : ptr) : M Person := λ σ,
  match p with
  | None => Panic nil_dereference
  | Some l =>
      match persons σ !! l with
      | Some v => Ok v σ
      | None => Panic nil_dereference
      end
  end.

Definition set_Name (v : Person) (name : string) : Person :=
  mkPerson name (Age v) (Person_Address v).

(** Pointer receiver (lines 65-67): [p.Name = name] writes through [p]. *)
Definition Person_setName (p : ptr) (name : string) : M unit := λ σ,
  match p with
  | None => Panic nil_dereference
  | Some l =>
      match persons σ !! l with
      | Some v =>
          Ok tt (mkState (<[l := set_Name v name]> (persons σ)) (cells σ) (trace σ))
      | None => Panic nil_dereference
      end
  end.

(** A value of type [func(int) int] built by [adder]: the code is always
    the same func literal, the environment is the captured variable [sum]. *)
Record closure := mkClosure { sum : loc }.

(** Lines 70-76: a fresh [sum], set to 0, escapes into the closure. *)
Definition adder : M closure := λ σ,
  let l := fresh (dom (cells σ)) in
  Ok (mkClosure l) (mkState (persons σ) (<[l := 0]> (cells σ)) (trace σ)).

(** Lines 72-75, the func literal: [sum += x; return sum].  A closure
    always has its captured variable; the last branch is there only
    because the store is a partial map. *)
Definition adder_func (a : arch) (f : closure) (x : Z) : M Z := λ σ,
  match cells σ !! sum f with
  | Some s =>
      let s' := iadd a s x in
      Ok s' (mkState (persons σ) (<[sum f := s']> (cells σ)) (trace σ))
  | None => Panic nil_dereference
  end.

(** Successive calls of one closure, results in call order. *)
Fixpoint call_all (a : arch) (f : closure) (xs : list Z) : M (list Z) :=
  match xs with
  | [] => mret []
  | x :: xs' =>
      r ← adder_func a f x;
      rs ← call_all a f xs';
      mret (r :: rs)
  end.

(** Calls of two closures in any order: [(true, x)] calls the first with
    [x], [(false, x)] the second.  Each result keeps its tag. *)
Fixpoint call_interleaved (a : arch) (f g : closure) (calls : list (bool * Z))
    : M (list (bool * Z)) :=
  match calls with
  | [] => mret []
  | (who, x) :: calls' =>
      r ← adder_func a (if who then f else g) x;
      rs ← call_interleaved a f g calls';
      mret ((who, r) :: rs)
  end.

(** The arguments, or results, that belong to one of the two closures. *)
Definition project (who : bool) (l : list (bool * Z)) : list Z :=
  snd <$> filter (λ c, fst c = who) l.

(** ** [main], sequential parts *)





(** ** [main], lines 107-113: goroutine and wait-group *)

Module Sync.

(** Where the launching flow stands. *)
Inductive main_pc :=
  | AtAdd      (* before [wg.Add(1)] *)
  | AtGo       (* before the [go] statement *)
  | AtWait     (* inside [wg.Wait()] *)
  | PastWait.  (* [wg.Wait()] has returned *)

(** Where a goroutine running the func literal of lines 109-112 stands. *)
Inductive go_pc :=
  | AtDefer    (* before [defer wg.Done()] *)
  | AtPrintln  (* [wg.Done] deferred, before [fmt.Println] *)
  | AtReturn   (* body finished, the deferred call is about to run *)
  | Exited.

Inductive event :=
  | EvAdd (delta : Z)
  | EvGo
  | EvDone
  | EvWaitReturn.

#[global] Instance event_eq_dec : EqDecision event.
Proof. solve_decision. Defined.

Record config := mkConfig {
  pc : main_pc;
  goroutines : list go_pc;   (* one entry per goroutine launched *)
  wg : Z;                    (* counter of the [sync.WaitGroup] *)
  crashed : bool;            (* a panic took the process down *)
  st : state;
  history : list event       (* synchronisation events, oldest first *)
}.

(** [var wg sync.WaitGroup]: the zero value has counter 0. *)
Definition init (σ : state) : config := mkConfig AtAdd [] 0 false σ [].

(** [wg.Add(delta)] panics when the counter would become negative. *)
Definition wg_add (delta counter : Z) : option Z :=
  if counter + delta <? 0 then None else Some (counter + delta).

(** The state once the goroutine has printed its line (line 111). *)
Definition after_println (σ : state) : state :=
  mkState (persons σ) (cells σ) (trace σ ++ [Console [VStr "Inside goroutine"]]).

(** One step of one flow; any flow that can move may be the next. *)
Inductive step : config → config → Prop :=
  | step_add gs n n' σ h :
      wg_add 1 n = Some n' →
      step (mkConfig AtAdd gs n false σ h)
           (mkConfig AtGo gs n' false σ (h ++ [EvAdd 1]))
  | step_go gs n σ h :
      step (mkConfig AtGo gs n false σ h)
           (mkConfig AtWait (gs ++ [AtDefer]) n false σ (h ++ [EvGo]))
  | step_wait gs σ h :
      step (mkConfig AtWait gs 0 false σ h)
           (mkConfig PastWait gs 0 false σ (h ++ [EvWaitReturn]))
  | step_defer m gs i n σ h :
      gs !! i = Some AtDefer →
      step (mkConfig m gs n false σ h)
           (mkConfig m (<[i := AtPrintln]> gs) n false σ h)
  | step_println m gs i n σ σ' h :
      gs !! i = Some AtPrintln →
      Println [VStr "Inside goroutine"] σ = Ok tt σ' →
      step (mkConfig m gs n false σ h)
           (mkConfig m (<[i := AtReturn]> gs) n false σ' h)
  | step_done m gs i n n' σ h :
      gs !! i = Some AtReturn →
      wg_add (-1) n = Some n' →
      step (mkConfig m gs n false σ h)
           (mkConfig m (<[i := Exited]> gs) n' false σ (h ++ [EvDone]))
  | step_add_panic gs n σ h :
      wg_add 1 n = None →
      step (mkConfig AtAdd gs n false σ h) (mkConfig AtAdd gs n true σ h)
  | step_done_panic m gs i n σ h :
      gs !! i = Some AtReturn →
      wg_add (-1) n = None →
      step (mkConfig m gs n false σ h) (mkConfig m gs n true σ h).

Definition reachable (σ : state) (c : config) : Prop := rtc step (init σ) c.

(** The one order in which the synchronisation events can happen. *)
Definition full_history : list event := [EvAdd 1; EvGo; EvDone; EvWaitReturn].

(** [wg.Wait()] has returned. *)
Definition final (σ : state) : config :=
  mkConfig PastWait [Exited] 0 false (after_println σ) full_history.

(** The configurations of lines 107-113, in execution order. *)
Definition stages (σ : state) : list config :=
  [ init σ;
    mkConfig AtGo [] 1 false σ [EvAdd 1];
    mkConfig AtWait [AtDefer] 1 false σ [EvAdd 1; EvGo];
    mkConfig AtWait [AtPrintln] 1 false σ [EvAdd 1; EvGo];
    mkConfig AtWait [AtReturn] 1 false (after_println σ) [EvAdd 1; EvGo];
    mkConfig AtWait [Exited] 0 false (after_println σ) [EvAdd 1; EvGo; EvDone];
    final σ ].

End Sync.




(** ** The declarations as data: method sets and interface satisfaction *)

Module Decl.

#[warnings="-register-all"] Inductive ty :=
  | TInt
  | TString
  | TError
  | TBytes                           (* [[]byte] *)
  | TNamed (n : string)
  | TPointer (t : ty)
  | TFunc (params results : list ty).

Fixpoint ty_eqb (s t : ty) : bool :=
  let fix all2 (l l' : list ty) : bool :=
    match l, l' with
    | [], [] => true
    | x :: k, y :: k' => ty_eqb x y && all2 k k'
    | _, _ => false
    end in
  match s, t with
  | TInt, TInt | TString, TString | TError, TError | TBytes, TBytes => true
  | TNamed n, TNamed n' => bool_decide (n = n')
  | TPointer s', TPointer t' => ty_eqb s' t'
  | TFunc ps rs, TFunc ps' rs' => all2 ps ps' && all2 rs rs'
  | _, _ => false
  end.

Fixpoint tys_eqb (l l' : list ty) : bool :=
  match l, l' with
  | [], [] => true
  | x :: k, y :: k' => ty_eqb x y && tys_eqb k k'
  | _, _ => false
  end.

Record method := mkMethod {
  m_name : string;
  m_params : list ty;
  m_results : list ty
}.

Definition method_eqb (m m' : method) : bool :=
  bool_decide (m_name m = m_name m')
  && tys_eqb (m_params m) (m_params m')
  && tys_eqb (m_results m) (m_results m').

Inductive type_decl :=
  | Struct (fields : list (string * ty)) (embedded : list ty)
  | Interface (embedded : list string) (methods : list method)
  | Defined (underlying : ty).

(** Lines 20-43, and [io.Reader] as package [io] declares it. *)
Definition types : list (string * type_decl) :=
  [ ("MyInt", Defined (TNamed "Address"));
    ("Address", Struct [("City", TString); ("State", TString)] []);
    ("Person", Struct [("Name", TString); ("Age", TInt)] [TNamed "Address"]);
    ("Reader", Interface [] [mkMethod "Read" [TBytes] [TInt; TError]]);
    ("ReadWriter",
      Interface ["Reader"] [mkMethod "Write" [TBytes] [TInt; TError]]);
    ("io.Reader", Interface [] [mkMethod "Read" [TBytes] [TInt; TError]]) ].

Inductive receiver :=
  | NoReceiver
  | ByValue (t : string)
  | ByPointer (t : string).

Record func_decl := mkFunc {
  f_name : string;
  f_recv : receiver;
  f_params : list ty;
  f_results : list ty
}.

(** Lines 46-79: every function and method the file defines. *)
Definition funcs : list func_decl :=
  [ mkFunc "greet" NoReceiver [TString] [TString];
    mkFunc "Haha" NoReceiver
      [TPointer (TNamed "Reader"); TPointer (TNamed "Reader")]
      [TPointer (TNamed "Reader")];
    mkFunc "swap" NoReceiver [TInt; TInt] [TInt; TInt];
    mkFunc "greet" (ByValue "Person") [] [TString];
    mkFunc "setName" (ByPointer "Person") [TString] [];
    mkFunc "adder" NoReceiver [] [TFunc [TInt] [TInt]];
    mkFunc "main" NoReceiver [] [] ].

Definition lookup_type (n : string) : option type_decl :=
  snd <$> List.find (λ d, bool_decide (fst d = n)) types.

Definition as_method (f : func_decl) : method :=
  mkMethod (f_name f) (f_params f) (f_results f).

(** Methods declared with receiver [n] ([ptr = false]) or with receiver
    [n] or [*n] ([ptr = true]). *)
Definition declared_methods (n : string) (ptr : bool) : list method :=
  as_method <$> List.filter (λ f,
    match f_recv f with
    | ByValue t => bool_decide (t = n)
    | ByPointer t => bool_decide (t = n) && ptr
    | NoReceiver => false
    end) funcs.

(** Method set of an interface: its own methods and those it embeds. *)
Fixpoint interface_methods (depth : nat) (n : string) : list method :=
  match depth, lookup_type n with
  | S d, Some (Interface embedded methods) =>
      methods ++ concat (interface_methods d <$> embedded)
  | _, _ => []
  end.

(** Method set of a type, after the Go specification: [T] has the
    methods with receiver [T], [*T] those with receiver [T] or [*T];
    a struct also gets the methods promoted from its embedded fields.
    A defined type ([Defined]) inherits no methods. *)
Fixpoint method_set (depth : nat) (t : ty) : list method :=
  match depth with
  | O => []
  | S d =>
      let promoted (ptr : bool) (n : string) :=
        match lookup_type n with
        | Some (Struct _ embedded) =>
            concat ((λ e,
              match e with
              | TNamed m =>
                  method_set d (if ptr then TPointer (TNamed m) else TNamed m)
              | TPointer (TNamed m) => method_set d (TPointer (TNamed m))
              | _ => []
              end) <$> embedded)
        | _ => []
        end in
      match t with
      | TNamed n =>
          match lookup_type n with
          | Some (Interface _ _) => interface_methods (S d) n
          | _ => declared_methods n false ++ promoted false n
          end
      | TPointer (TNamed n) => declared_methods n true ++ promoted true n
      | _ => []
      end
  end.

(** Nesting of declared types never exceeds their number. *)
Definition depth : nat := length types.

Definition has_method (t : ty) (mname : string) : bool :=
  bool_decide (mname ∈ m_name <$> method_set depth t).

(** [t] implements interface [i]: every method of [i] is in the method
    set of [t], with the same signature. *)
Definition implements (t : ty) (i : string) : bool :=
  forallb (λ m, existsb (method_eqb m) (method_set depth t))
    (interface_methods depth i).

Definition is_interface (n : string) : bool :=
  match lookup_type n with Some (Interface _ _) => true | _ => false end.

(** Assignability of a value of type [from] to a variable of type [to]:
    identical types, or [to] is an interface that [from] implements. *)
Definition assignable (from to : ty) : bool :=
  ty_eqb from to ||
  match to with
  | TNamed i => is_interface i && implements from i
  | _ => false
  end.

(** Line 104, [r = &p] with [r : io.Reader] and [p : Person]. *)
Definition line_104_well_typed : bool :=
  assignable (TPointer (TNamed "Person")) (TNamed "io.Reader").

Definition returns_error (f : func_decl) : bool :=
  existsb (λ t, ty_eqb t TError) (f_results f).

(** A call in the file: line, callee, result types of the callee, and
    whether the call's results are bound or passed on. *)
Record call := mkCall {
  c_line : nat;
  c_callee : string;
  c_results : list ty;
  c_used : bool
}.

(** Every call of lines 79-120, in source order. *)
Definition calls : list call :=
  [ mkCall 84 "greet" [TString] true;
    mkCall 84 "fmt.Println" [TInt; TError] false;
    mkCall 87 "swap" [TInt; TInt] true;
    mkCall 88 "fmt.Println" [TInt; TError] false;
    mkCall 92 "Person.greet" [TString] true;
    mkCall 92 "fmt.Println" [TInt; TError] false;
    mkCall 95 "Person.setName" [] false;
    mkCall 96 "Person.greet" [TString] true;
    mkCall 96 "fmt.Println" [TInt; TError] false;
    mkCall 100 "fmt.Println" [TInt; TError] false;
    mkCall 108 "sync.WaitGroup.Add" [] false;
    mkCall 109 "func literal" [] false;
    mkCall 110 "sync.WaitGroup.Done" [] false;
    mkCall 111 "fmt.Println" [TInt; TError] false;
    mkCall 113 "sync.WaitGroup.Wait" [] false;
    mkCall 116 "adder" [TFunc [TInt] [TInt]] true;
    mkCall 116 "adder" [TFunc [TInt] [TInt]] true;
    mkCall 118 "pos" [TInt] true;
    mkCall 118 "neg" [TInt] true;
    mkCall 118 "fmt.Println" [TInt; TError] false ].

(** The call yields an [error] and the caller looks at its results. *)
Definition checks_error (c : call) : bool :=
  existsb (λ t, ty_eqb t TError) (c_results c) && c_used c.

(** The call is to the builtin [recover]. *)
Definition recovers (c : call) : bool := bool_decide (c_callee c = "recover").

End Decl.

(** ** Lines 99, 100 and 104: statements that do not type-check *)

(** The underlying type of [t] is numeric; of the types the file uses
    only [int] is: [t] is [int], or a defined type over such a type. *)
Fixpoint is_integer_type (depth : nat) (t : Decl.ty) : bool :=
  match t, depth with
  | Decl.TInt, _ => true
  | Decl.TNamed n, S d =>
      match Decl.lookup_type n with
      | Some (Decl.Defined u) => is_integer_type d u
      | _ => false
      end
  | _, _ => false
  end.

(** Line 99, [var number MyInt = 42]: an integer constant can only
    initialise a variable whose underlying type is numeric. *)
Definition line_99_well_typed : bool :=
  is_integer_type Decl.depth (Decl.TNamed "MyInt").

(** Line 100, [int(number)] with [number : MyInt]: a conversion to [int]
    needs an operand whose underlying type is numeric. *)
Definition line_100_well_typed : bool :=
  is_integer_type Decl.depth (Decl.TNamed "MyInt").

(** ** Where the calls of the file lead *)

Inductive callee_kind :=
  | OwnCode        (* a function, method or func literal of this file *)
  | InMemory       (* [sync.WaitGroup]: synchronisation inside the process *)
  | ConsoleWrite   (* [fmt.Println]: a write to standard output *)
  | Elsewhere.     (* any other callee: files, network, ... *)

#[global] Instance callee_kind_eq_dec : EqDecision callee_kind.
Proof. solve_decision. Defined.







(** ** Vocabulary of the statements *)

Definition sum_of (xs : list Z) : Z := foldr Z.add 0 xs.

(** The value [sum] holds after each call, starting from [s]. *)
Fixpoint running_sums (a : arch) (s : Z) (xs : list Z) : list Z :=
  match xs with
  | [] => []
  | x :: xs' => iadd a s x :: running_sums a (iadd a s x) xs'
  end.


(** The computation returns normally. *)
Definition succeeds {A} (m : M A) (σ : state) : Prop := ∃ x σ', m σ = Ok x σ'.

(** Go pointers other than [nil] always point to a live variable, and a
    closure always has its environment. *)
Definition live_Person (σ : state) (p : ptr) : Prop :=
  ∃ l, p = Some l ∧ is_Some (persons σ !! l).

Definition live_closure (σ : state) (f : closure) : Prop :=
  is_Some (cells σ !! sum f).

(** A store to try the statements on. *)
Definition alice : Person :=
  mkPerson "Alice" 30 (mkAddress "Wonderland" "Fiction").

Definition alice_state : state :=
  mkState {[ 1%positive := alice ]} {[ 1%positive := 5 ]} [].

Definition bob : Person :=
  mkPerson "Bob" 41 (mkAddress "Springfield" "Nowhere").

(** Two persons, and two accumulators holding 5 and -10. *)
Definition pair_state : state :=
  mkState {[ 1%positive := alice; 2%positive := bob ]}
          {[ 1%positive := 5; 2%positive := -10 ]} [].

(** Go's unary minus on [int]. *)
Definition ineg (a : arch) (x : Z) : Z := wrap a (- x).

(** The value of [sum] once the closure has been called with [xs] in
    turn, starting from [s]. *)
Definition final_sum (a : arch) (s : Z) (xs : list Z) : Z :=
  foldl (iadd a) s xs.

(** * Properties *)

(** ** Integers *)

Lemma int_bits_pos a : 0 < int_bits a.
Proof. by destruct a. Qed.

Lemma int_modulus a : 2 ^ int_bits a = 2 * 2 ^ (int_bits a - 1).
Proof. by destruct a. Qed.

Lemma wrap_range a z : in_range a (wrap a z).
Proof.
  unfold in_range, wrap, int_max, int_min.
  pose proof (Z.mod_pos_bound (z - - 2 ^ (int_bits a - 1)) (2 ^ int_bits a)) as H.
  rewrite int_modulus in *.
  assert (0 < 2 ^ (int_bits a - 1)) as Hpos by (by destruct a).
  lia.
Qed.

Lemma wrap_in_range a z : in_range a z → wrap a z = z.
Proof.
  unfold in_range, wrap, int_max, int_min. intros Hz.
  rewrite Z.mod_small; [lia|].
  rewrite int_modulus. lia.
Qed.

Lemma wrap_add_l a u v : wrap a (wrap a u + v) = wrap a (u + v).
Proof.
  unfold wrap. f_equal.
  replace ((u - int_min a) mod 2 ^ int_bits a + int_min a + v - int_min a)
    with ((u - int_min a) mod 2 ^ int_bits a + v) by lia.
  rewrite Zplus_mod_idemp_l. f_equal. lia.
Qed.

Lemma running_sums_length a s xs : length (running_sums a s xs) = length xs.
Proof. revert s. induction xs as [|x xs IH]; intros s; simpl; [done|]. by rewrite IH. Qed.

(** After [n] calls the closure has returned the wrapped sum of what it
    started from and its first [n] arguments. *)
Lemma running_sums_take a s xs :
  running_sums a s xs
  = (λ n, wrap a (s + sum_of (take n xs))) <$> seq 1 (length xs).
Proof.
  revert s. induction xs as [|x xs IH]; intros s; [done|].
  cbn [running_sums length seq fmap list_fmap]. f_equal.
  - unfold iadd. simpl. f_equal. lia.
  - rewrite <- (fmap_S_seq 1), <- list_fmap_compose, IH.
    apply list_fmap_ext. intros _ n _. simpl.
    unfold iadd. rewrite wrap_add_l. f_equal. lia.
Qed.

(** ** Pure functions *)

(** C1: [swap(1, 2)] returns [(2, 1)]; for all arguments the two results
    are the inputs in reversed order. *)
Theorem swap_reverses :
  swap 1 2 = (2, 1) ∧ ∀ x y, swap x y = (y, x) ∧ fst (swap x y) = y ∧ snd (swap x y) = x.
Proof. split; [reflexivity|]. intros x y. by unfold swap. Qed.

(** C9: for every [Person] the method [greet] returns what the function
    [greet] returns on the person's [Name], namely ["Hello, "] followed by
    that name. *)
Theorem Person_greet_is_greet (p : Person) :
  Person_greet p = greet (Name p) ∧ Person_greet p = "Hello, " +:+ Name p.
Proof. split; reflexivity. Qed.

(** ** The pointer-receiver method *)

Lemma Person_setName_live σ l v n :
  persons σ !! l = Some v →
  Person_setName (Some l) n σ
  = Ok tt (mkState (<[l := set_Name v n]> (persons σ)) (cells σ) (trace σ)).
Proof. intros H. unfold Person_setName. by rewrite H. Qed.

(** C8: calling [setName(n)] on an addressable [Person] sets its [Name]
    to [n] and leaves [Age] and the embedded [Address] ([City], [State])
    as they were; nothing else in the store or on the console changes. *)
Theorem setName_sets_only_Name (σ : state) (l : loc) (p : Person) (n : string) :
  persons σ !! l = Some p →
  ∃ σ' p',
    Person_setName (Some l) n σ = Ok tt σ' ∧
    persons σ' !! l = Some p' ∧
    Name p' = n ∧
    Age p' = Age p ∧
    Person_Address p' = Person_Address p ∧
    City (Person_Address p') = City (Person_Address p) ∧
    State (Person_Address p') = State (Person_Address p) ∧
    (∀ l', l' ≠ l → persons σ' !! l' = persons σ !! l') ∧
    cells σ' = cells σ ∧ trace σ' = trace σ.
Proof.
  intros Hp. eexists _, (set_Name p n).
  split; [by apply Person_setName_live|]. simpl.
  split; [by rewrite lookup_insert_eq|].
  repeat split. intros l' Hne. by rewrite lookup_insert_ne.
Qed.

Lemma setName_sets_only_Name_witness :
  persons alice_state !! 1%positive = Some alice ∧
  ∃ σ' p',
    Person_setName (Some 1%positive) "Bob" alice_state = Ok tt σ' ∧
    persons σ' !! 1%positive = Some p' ∧
    Name p' = "Bob" ∧ Age p' = 30 ∧
    Person_Address p' = mkAddress "Wonderland" "Fiction".
Proof.
  assert (persons alice_state !! 1%positive = Some alice) as H by reflexivity.
  split; [exact H|].
  destruct (setName_sets_only_Name alice_state 1%positive alice "Bob" H)
    as (σ' & p' & H1 & H2 & H3 & H4 & H5 & _).
  exists σ', p'. repeat split; assumption.
Defined.

(** ** The closure *)

Lemma adder_fresh σ :
  ∃ l, cells σ !! l = None ∧
       adder σ = Ok (mkClosure l) (mkState (persons σ) (<[l := 0]> (cells σ)) (trace σ)).
Proof.
  exists (fresh (dom (cells σ))). split; [|done].
  apply not_elem_of_dom, is_fresh.
Qed.

Lemma adder_func_live a f x σ s :
  cells σ !! sum f = Some s →
  adder_func a f x σ
  = Ok (iadd a s x)
       (mkState (persons σ) (<[sum f := iadd a s x]> (cells σ)) (trace σ)).
Proof. intros H. unfold adder_func. by rewrite H. Qed.

(** Calls of one closure: the results are the running sums, and only the
    captured variable changes. *)
Lemma call_all_running a f xs σ s :
  cells σ !! sum f = Some s →
  ∃ σ', call_all a f xs σ = Ok (running_sums a s xs) σ' ∧
        persons σ' = persons σ ∧ trace σ' = trace σ ∧
        ∀ l, l ≠ sum f → cells σ' !! l = cells σ !! l.
Proof.
  revert σ s. induction xs as [|x xs IH]; intros σ s Hs.
  - by exists σ.
  - cbn [call_all running_sums]. unfold mbind, M_bind at 1.
    rewrite (adder_func_live _ _ _ _ _ Hs).
    edestruct (IH (mkState (persons σ) (<[sum f := iadd a s x]> (cells σ)) (trace σ)))
      as (σ' & Hrun & Hp & Ht & Hc); [by apply lookup_insert_eq|].
    exists σ'. unfold M_bind. rewrite Hrun. split; [done|].
    repeat split; [done..|]. intros l Hl. rewrite Hc by done.
    by apply lookup_insert_ne.
Qed.

(** Calls of two closures with distinct captured variables: each one's
    results are its own running sums over its own arguments. *)
Lemma call_interleaved_running a f g calls σ s t :
  sum f ≠ sum g →
  cells σ !! sum f = Some s → cells σ !! sum g = Some t →
  ∃ rs σ', call_interleaved a f g calls σ = Ok rs σ' ∧
           project true rs = running_sums a s (project true calls) ∧
           project false rs = running_sums a t (project false calls).
Proof.
  intros Hne. revert σ s t.
  induction calls as [|[who x] calls IH]; intros σ s t Hs Ht.
  - by exists [], σ.
  - cbn [call_interleaved]. unfold mbind, M_bind at 1. destruct who.
    + rewrite (adder_func_live _ _ _ _ _ Hs).
      edestruct (IH (mkState (persons σ) (<[sum f := iadd a s x]> (cells σ)) (trace σ))
                   (iadd a s x) t) as (rs & σ' & Hrun & Hf & Hg).
      { by apply lookup_insert_eq. }
      { simpl. by rewrite lookup_insert_ne. }
      exists ((true, iadd a s x) :: rs), σ'. unfold M_bind. rewrite Hrun.
      split; [done|]. unfold project in *.
      rewrite !filter_cons_True by done. rewrite !filter_cons_False by done.
      split; [|exact Hg].
      rewrite !fmap_cons. cbn [snd running_sums]. by rewrite Hf.
    + rewrite (adder_func_live _ _ _ _ _ Ht).
      edestruct (IH (mkState (persons σ) (<[sum g := iadd a t x]> (cells σ)) (trace σ))
                   s (iadd a t x)) as (rs & σ' & Hrun & Hf & Hg).
      { simpl. by rewrite lookup_insert_ne. }
      { by apply lookup_insert_eq. }
      exists ((false, iadd a t x) :: rs), σ'. unfold M_bind. rewrite Hrun.
      split; [done|]. unfold project in *.
      rewrite !filter_cons_False by done. rewrite !filter_cons_True by done.
      split; [exact Hf|].
      rewrite !fmap_cons. cbn [snd running_sums]. by rewrite Hg.
Qed.

(** C2, as the claim words it, fails on overflow: on a 64-bit target a
    closure called with [9223372036854775807] and then [1] returns
    [-9223372036854775808] from its second call, not the sum of its first
    two arguments. *)
Lemma adder_sum_overflows :
  ∃ f σ1 rs σ2,
    adder empty_state = Ok f σ1 ∧
    call_all Int64 f [9223372036854775807; 1] σ1 = Ok rs σ2 ∧
    in_range Int64 9223372036854775807 ∧ in_range Int64 1 ∧
    rs !! 1%nat = Some (-9223372036854775808) ∧
    rs !! 1%nat ≠ Some (sum_of (take 2 [9223372036854775807; 1])).
Proof.
  do 4 eexists. split; [reflexivity|]. split; [vm_compute; reflexivity|].
  repeat split; vm_compute; congruence.
Qed.

(** C2 (amended): a closure returned by [adder()] starts its accumulator
    at zero, and its n-th call returns the sum of the first n arguments
    it was passed, reduced to the range of [int] by two's-complement
    wrap-around; called with 0, 1, 2, 3 it returns 0, 1, 3, 6. *)
Theorem adder_running_sums (a : arch) (σ : state) :
  ∃ f σ1,
    adder σ = Ok f σ1 ∧
    cells σ1 !! sum f = Some 0 ∧
    (∀ xs, ∃ σ2,
       call_all a f xs σ1
       = Ok ((λ n, wrap a (sum_of (take n xs))) <$> seq 1 (length xs)) σ2) ∧
    (∃ σ2, call_all a f [0; 1; 2; 3] σ1 = Ok [0; 1; 3; 6] σ2).
Proof.
  destruct (adder_fresh σ) as (l & _ & Hadder).
  eexists _, _. split; [exact Hadder|].
  assert (cells (mkState (persons σ) (<[l := 0]> (cells σ)) (trace σ))
            !! sum (mkClosure l) = Some 0) as H0 by apply lookup_insert_eq.
  split; [exact H0|]. split.
  - intros xs. destruct (call_all_running a _ xs _ _ H0) as (σ2 & Hrun & _).
    exists σ2. by rewrite Hrun, running_sums_take.
  - destruct (call_all_running a _ [0; 1; 2; 3] _ _ H0) as (σ2 & Hrun & _).
    exists σ2. rewrite Hrun. by destruct a.
Qed.

(** C10: two closures from separate calls of [adder()] do not share
    their accumulator: in every interleaving of calls, each closure
    returns exactly what it returns when it alone is called with the same
    argument sequence. *)
Theorem adder_closures_independent (a : arch) (σ : state) (calls : list (bool * Z)) :
  ∃ pos σ1 neg σ2 rs σ3,
    adder σ = Ok pos σ1 ∧ adder σ1 = Ok neg σ2 ∧
    sum pos ≠ sum neg ∧
    call_interleaved a pos neg calls σ2 = Ok rs σ3 ∧
    (∃ σ', call_all a pos (project true calls) σ2 = Ok (project true rs) σ') ∧
    (∃ σ', call_all a neg (project false calls) σ2 = Ok (project false rs) σ').
Proof.
  destruct (adder_fresh σ) as (l & _ & Hpos).
  destruct (adder_fresh (mkState (persons σ) (<[l := 0]> (cells σ)) (trace σ)))
    as (k & Hk & Hneg). simpl in Hk, Hneg.
  assert (l ≠ k) as Hne by (intros ->; by rewrite lookup_insert_eq in Hk).
  set (σ2 := mkState (persons σ) (<[k := 0]> (<[l := 0]> (cells σ))) (trace σ)) in *.
  assert (cells σ2 !! l = Some 0) as Hl
    by (simpl; rewrite lookup_insert_ne by done; apply lookup_insert_eq).
  assert (cells σ2 !! k = Some 0) as Hk' by apply lookup_insert_eq.
  destruct (call_interleaved_running a (mkClosure l) (mkClosure k) calls σ2 0 0
              Hne Hl Hk') as (rs & σ3 & Hrun & Hf & Hg).
  eexists (mkClosure l), _, (mkClosure k), σ2, rs, σ3.
  split; [exact Hpos|]. split; [exact Hneg|]. split; [exact Hne|].
  split; [exact Hrun|]. split.
  - destruct (call_all_running a (mkClosure l) (project true calls) σ2 0 Hl)
      as (σ' & H & _). exists σ'. by rewrite Hf.
  - destruct (call_all_running a (mkClosure k) (project false calls) σ2 0 Hk')
      as (σ' & H & _). exists σ'. by rewrite Hg.
Qed.

(** The loop of [main]: [pos(i)] and [neg(-2*i)] for [i] from 0 to 9. *)
Example pos_neg_in_main :
  ∃ pos σ1 neg σ2 rs σ3,
    adder empty_state = Ok pos σ1 ∧ adder σ1 = Ok neg σ2 ∧
    call_interleaved Int64 pos neg
      [(true, 0); (false, 0); (true, 1); (false, -2); (true, 2); (false, -4);
       (true, 3); (false, -6)] σ2 = Ok rs σ3 ∧
    project true rs = [0; 1; 3; 6] ∧ project false rs = [0; -2; -6; -12].
Proof. do 6 eexists. repeat split; vm_compute; reflexivity. Qed.

(** ** Failure paths *)

(** C6, as the claim words it, fails for [setName]: the receiver is a
    pointer, and on [nil] the assignment [p.Name = name] panics. *)
Lemma setName_nil_panics :
  Person_setName nil "Bob" empty_state = Panic nil_dereference ∧
  ¬ succeeds (Person_setName nil "Bob") empty_state.
Proof. split; [reflexivity|]. intros (x & σ' & H). discriminate H. Qed.

(** C6 (amended): no function or method defined in the file returns an
    error value, no call has its error result looked at, nothing calls
    [recover], and [greet], [Haha], [swap], [Person.greet] and [adder]
    return normally on all inputs, as does the closure [adder] returns;
    [Person.setName] returns normally on every receiver other than
    [nil]. *)
Theorem functions_total_without_errors (a : arch) (σ : state) :
  Forall (λ f, Decl.returns_error f = false) Decl.funcs ∧
  Forall (λ c, Decl.checks_error c = false ∧ Decl.recovers c = false) Decl.calls ∧
  (∀ n, succeeds (mret (greet n)) σ) ∧
  (∀ p q, succeeds (mret (Haha p q)) σ) ∧
  (∀ x y, succeeds (mret (swap x y)) σ) ∧
  (∀ v, succeeds (mret (Person_greet v)) σ) ∧
  succeeds adder σ ∧
  (∀ f x, live_closure σ f → succeeds (adder_func a f x) σ) ∧
  (∀ p n, live_Person σ p → succeeds (Person_setName p n) σ).
Proof.
  split; [by repeat constructor|].
  split; [by repeat constructor|].
  repeat split; try (intros; by eexists _, _).
  - intros f x [s Hs]. eexists _, _. by apply adder_func_live.
  - intros p n (l & -> & [v Hv]). eexists _, _. by apply Person_setName_live.
Qed.

Lemma functions_total_without_errors_witness :
  live_closure alice_state (mkClosure 1%positive) ∧
  live_Person alice_state (Some 1%positive) ∧
  succeeds (adder_func Int64 (mkClosure 1%positive) 7) alice_state ∧
  succeeds (Person_setName (Some 1%positive) "Bob") alice_state.
Proof.
  assert (live_closure alice_state (mkClosure 1%positive)) as Hc
    by (eexists; reflexivity).
  assert (live_Person alice_state (Some 1%positive)) as Hp
    by (eexists; split; [reflexivity | eexists; reflexivity]).
  destruct (functions_total_without_errors Int64 alice_state)
    as (_ & _ & _ & _ & _ & _ & _ & Hf & Hs).
  split; [exact Hc|]. split; [exact Hp|].
  split; [exact (Hf _ 7 Hc) | exact (Hs _ "Bob" Hp)].
Defined.

(** ** Interface satisfaction *)

(** C4: neither [Person] nor [*Person] has a [Read] method, so neither
    implements [io.Reader], and the assignment [r = &p] of line 104 is not
    well typed. *)
Theorem Person_does_not_implement_Reader :
  Decl.has_method (Decl.TNamed "Person") "Read" = false ∧
  Decl.has_method (Decl.TPointer (Decl.TNamed "Person")) "Read" = false ∧
  Decl.implements (Decl.TNamed "Person") "io.Reader" = false ∧
  Decl.implements (Decl.TPointer (Decl.TNamed "Person")) "io.Reader" = false ∧
  Decl.line_104_well_typed = false.
Proof. repeat split; vm_compute; reflexivity. Qed.

(** The method sets the file's declarations give rise to. *)
Example method_sets :
  Decl.m_name <$> Decl.method_set Decl.depth (Decl.TNamed "Person") = ["greet"] ∧
  Decl.m_name <$> Decl.method_set Decl.depth (Decl.TPointer (Decl.TNamed "Person"))
    = ["greet"; "setName"] ∧
  Decl.m_name <$> Decl.method_set Decl.depth (Decl.TNamed "ReadWriter")
    = ["Write"; "Read"] ∧
  Decl.implements (Decl.TNamed "ReadWriter") "io.Reader" = true.
Proof. repeat split; vm_compute; reflexivity. Qed.

(** ** Goroutine and wait-group *)

Ltac pick_goroutine :=
  repeat match goal with
  | H : _ !! ?i = Some _ |- _ =>
      destruct i as [|[|?]]; simpl in H; try discriminate H; clear H
  end.

Ltac in_stages :=
  unfold Sync.stages, Sync.final, Sync.full_history;
  repeat first [ apply list_elem_of_here | apply list_elem_of_further ].

(** A step never leaves the seven configurations listed in [stages]. *)
Lemma step_stages σ c c' :
  c ∈ Sync.stages σ → Sync.step c c' → c' ∈ Sync.stages σ.
Proof.
  intros Hin Hstep. unfold Sync.stages, Sync.init in Hin.
  repeat (apply elem_of_cons in Hin as [-> | Hin]);
    try (by apply elem_of_nil in Hin);
    inversion Hstep; subst; pick_goroutine;
    repeat match goal with
    | H : Sync.wg_add _ _ = _ |- _ => vm_compute in H; simplify_eq
    | H : Println _ _ = Ok _ _ |- _ => unfold Println in H; simplify_eq
    end;
    simpl; in_stages.
Qed.

Lemma reachable_stages σ c : Sync.reachable σ c → c ∈ Sync.stages σ.
Proof.
  unfold Sync.reachable. revert c.
  apply (rtc_ind_r (λ c, c ∈ Sync.stages σ) (Sync.init σ)).
  - in_stages.
  - intros c c' _ Hstep IH. by eapply step_stages.
Qed.

(** Each configuration of [stages] steps to the next one. *)
Lemma stages_step σ (i : nat) c c' :
  Sync.stages σ !! i = Some c → Sync.stages σ !! S i = Some c' → Sync.step c c'.
Proof.
  intros H H'.
  destruct i as [|[|[|[|[|[|[|?]]]]]]]; simpl in H, H'; simplify_eq.
  - by apply Sync.step_add.
  - apply (Sync.step_go [] 1).
  - by apply (Sync.step_defer _ [Sync.AtDefer] 0%nat).
  - by apply (Sync.step_println _ [Sync.AtPrintln] 0%nat).
  - by apply (Sync.step_done _ [Sync.AtReturn] 0%nat 1 0).
  - apply Sync.step_wait.
Qed.

Lemma stages_finish σ c :
  c ∈ Sync.stages σ → rtc Sync.step c (Sync.final σ).
Proof.
  intros [i Hi]%list_elem_of_lookup.
  assert (∀ k j d, (j + k = 6)%nat → Sync.stages σ !! j = Some d →
            rtc Sync.step d (Sync.final σ)) as Hgo.
  { induction k as [|k IH]; intros j d Hj Hd.
    - replace j with 6%nat in Hd by lia. simpl in Hd. simplify_eq. done.
    - destruct (Sync.stages σ !! S j) as [d'|] eqn:Hd'.
      + eapply rtc_l; [by eapply stages_step|]. apply (IH (S j)); [lia|done].
      + apply lookup_ge_None in Hd'. simpl in Hd'. lia. }
  assert (i < 7)%nat as Hlt by (apply lookup_lt_Some in Hi; exact Hi).
  apply (Hgo (6 - i)%nat i); [lia|done].
Qed.

(** C3: in every interleaving of lines 107-113 the wait-group is
    incremented by one before the one [go] statement runs, exactly one
    goroutine is launched, it decrements the wait-group exactly once, after
    its [Println], and [wg.Wait()] returns only after that decrement; the
    counter never goes negative, and [main] can always get past
    [wg.Wait()]. *)
Theorem one_goroutine_one_Done (σ : state) (c : Sync.config) :
  Sync.reachable σ c →
  Sync.crashed c = false ∧
  Sync.history c `prefix_of` [Sync.EvAdd 1; Sync.EvGo; Sync.EvDone; Sync.EvWaitReturn] ∧
  (length (Sync.goroutines c) ≤ 1)%nat ∧
  (Sync.EvGo ∈ Sync.history c → length (Sync.goroutines c) = 1%nat) ∧
  (Sync.EvDone ∈ Sync.history c →
     Sync.goroutines c = [Sync.Exited] ∧ Sync.wg c = 0 ∧
     Sync.st c = Sync.after_println σ) ∧
  (Sync.EvDone ∉ Sync.history c →
     Sync.pc c ≠ Sync.PastWait ∧
     Sync.wg c = (if bool_decide (Sync.EvAdd 1 ∈ Sync.history c) then 1 else 0)) ∧
  (Sync.pc c = Sync.PastWait →
     Sync.history c = [Sync.EvAdd 1; Sync.EvGo; Sync.EvDone; Sync.EvWaitReturn]) ∧
  (∃ c', rtc Sync.step c c' ∧ Sync.pc c' = Sync.PastWait ∧
         Sync.reachable σ c').
Proof.
  intros Hreach. pose proof (reachable_stages _ _ Hreach) as Hin.
  assert (∃ c', rtc Sync.step c c' ∧ Sync.pc c' = Sync.PastWait ∧
                Sync.reachable σ c') as Hlive.
  { eexists. split; [by apply stages_finish|]. split; [done|].
    eapply rtc_trans; [exact Hreach | by apply stages_finish]. }
  split_and!; try exact Hlive; clear Hlive Hreach;
    unfold Sync.stages, Sync.init, Sync.full_history in Hin;
    repeat (apply elem_of_cons in Hin as [-> | Hin]);
    try (by apply elem_of_nil in Hin); simpl;
    try done; try (by eexists); try lia;
    try (intros _; by split);
    intros H; exfalso;
    first [ by apply (bool_decide_pack _) in H
          | apply H; by apply (bool_decide_unpack _) ].
Qed.

Lemma one_goroutine_one_Done_witness :
  Sync.reachable empty_state (Sync.final empty_state) ∧
  Sync.crashed (Sync.final empty_state) = false ∧
  Sync.history (Sync.final empty_state)
  = [Sync.EvAdd 1; Sync.EvGo; Sync.EvDone; Sync.EvWaitReturn] ∧
  ∃ c', rtc Sync.step (Sync.final empty_state) c' ∧ Sync.pc c' = Sync.PastWait.
Proof.
  assert (Sync.reachable empty_state (Sync.final empty_state)) as H.
  { apply stages_finish. unfold Sync.stages. apply list_elem_of_here. }
  destruct (one_goroutine_one_Done empty_state _ H)
    as (H1 & _ & _ & _ & _ & _ & H7 & c' & H8 & H9 & _).
  split; [exact H|]. split; [exact H1|].
  split; [apply H7; reflexivity|].
  exists c'. split; [exact H8 | exact H9].
Defined.

(** ** The whole of [main] *)








(** The three statements left out of the embedding do not type-check:
    [MyInt] is a struct type, and [*Person] has no [Read]. *)
Example ill_typed_lines :
  line_99_well_typed = false ∧ line_100_well_typed = false ∧
  Decl.line_104_well_typed = false.
Proof. repeat split; vm_compute; reflexivity. Qed.




(** * Further properties *)

(** ** Greetings *)

(** X1: [greet] is injective: two names with the same greeting are the
    same name. *)
Theorem greet_injective (n1 n2 : string) : greet n1 = greet n2 → n1 = n2.
Proof. unfold greet. simpl. intros H. by simplify_eq. Qed.

Lemma greet_injective_witness : greet "Go" = greet "Go" ∧ "Go" = "Go".
Proof.
  assert (greet "Go" = greet "Go") as H by reflexivity.
  split; [exact H | exact (greet_injective "Go" "Go" H)].
Defined.

(** X2: the method [greet] looks at the [Name] only: two persons get the
    same greeting exactly when they have the same name, whatever their
    [Age] and [Address]. *)
Theorem Person_greet_only_Name (p q : Person) :
  Person_greet p = Person_greet q ↔ Name p = Name q.
Proof.
  unfold Person_greet. split; [|by intros ->].
  simpl. intros H. by simplify_eq.
Qed.

(** ** [setName] through a pointer *)

(** X3: after [p.setName(n)] the method [greet] called through the same
    pointer returns the greeting of [n] (lines 95-96 of [main]). *)
Theorem setName_then_greet (σ : state) (l : loc) (v : Person) (n : string) :
  persons σ !! l = Some v →
  ∃ σ', (Person_setName (Some l) n;;
         w ← load_Person (Some l);
         mret (Person_greet w)) σ = Ok (greet n) σ'.
Proof.
  intros Hv. eexists. unfold mbind, M_bind.
  rewrite (Person_setName_live _ _ _ _ Hv).
  unfold load_Person. cbn [persons]. by rewrite lookup_insert_eq.
Qed.

Lemma setName_then_greet_witness :
  persons alice_state !! 1%positive = Some alice ∧
  ∃ σ', (Person_setName (Some 1%positive) "Bob";;
         w ← load_Person (Some 1%positive);
         mret (Person_greet w)) alice_state = Ok "Hello, Bob" σ'.
Proof.
  assert (persons alice_state !! 1%positive = Some alice) as H by reflexivity.
  split; [exact H|].
  exact (setName_then_greet alice_state 1%positive alice "Bob" H).
Defined.

(** X4: the last [setName] wins: renaming twice through the same pointer
    leaves the store as the second renaming alone does. *)
Theorem setName_last_wins (σ : state) (l : loc) (v : Person) (n1 n2 : string) :
  persons σ !! l = Some v →
  (Person_setName (Some l) n1;; Person_setName (Some l) n2) σ
  = Person_setName (Some l) n2 σ.
Proof.
  intros Hv. unfold mbind, M_bind.
  rewrite !(Person_setName_live _ _ _ _ Hv).
  erewrite Person_setName_live by (cbn [persons]; apply lookup_insert_eq).
  cbn [persons cells trace]. by rewrite insert_insert_eq.
Qed.

Lemma setName_last_wins_witness :
  persons alice_state !! 1%positive = Some alice ∧
  (Person_setName (Some 1%positive) "Bob";; Person_setName (Some 1%positive) "Carol")
    alice_state
  = Person_setName (Some 1%positive) "Carol" alice_state.
Proof.
  assert (persons alice_state !! 1%positive = Some alice) as H by reflexivity.
  split; [exact H|].
  exact (setName_last_wins alice_state 1%positive alice "Bob" "Carol" H).
Defined.

(** X5: [setName] with the name the person already has changes nothing. *)
Theorem setName_same_name (σ : state) (l : loc) (v : Person) :
  persons σ !! l = Some v →
  Person_setName (Some l) (Name v) σ = Ok tt σ.
Proof.
  intros Hv. rewrite (Person_setName_live _ _ _ _ Hv). f_equal.
  replace (set_Name v (Name v)) with v by by destruct v.
  rewrite insert_id by done. by destruct σ.
Qed.

Lemma setName_same_name_witness :
  persons alice_state !! 1%positive = Some alice ∧
  Person_setName (Some 1%positive) "Alice" alice_state = Ok tt alice_state.
Proof.
  assert (persons alice_state !! 1%positive = Some alice) as H by reflexivity.
  split; [exact H|].
  exact (setName_same_name alice_state 1%positive alice H).
Defined.

(** X6: renamings through pointers to different persons commute. *)
Theorem setName_commutes (σ : state) (l1 l2 : loc) (v1 v2 : Person) (n1 n2 : string) :
  l1 ≠ l2 →
  persons σ !! l1 = Some v1 → persons σ !! l2 = Some v2 →
  (Person_setName (Some l1) n1;; Person_setName (Some l2) n2) σ
  = (Person_setName (Some l2) n2;; Person_setName (Some l1) n1) σ.
Proof.
  intros Hne H1 H2. unfold mbind, M_bind.
  rewrite (Person_setName_live _ _ _ _ H1), (Person_setName_live _ _ _ _ H2).
  erewrite !Person_setName_live
    by (cbn [persons]; rewrite lookup_insert_ne by done; eassumption).
  cbn [persons cells trace]. f_equal. f_equal. by apply insert_insert_ne.
Qed.

Lemma setName_commutes_witness :
  1%positive ≠ 2%positive ∧
  persons pair_state !! 1%positive = Some alice ∧
  persons pair_state !! 2%positive = Some bob ∧
  (Person_setName (Some 1%positive) "Ann";; Person_setName (Some 2%positive) "Ben")
    pair_state
  = (Person_setName (Some 2%positive) "Ben";; Person_setName (Some 1%positive) "Ann")
      pair_state.
Proof.
  assert (1%positive ≠ 2%positive) as Hne by discriminate.
  assert (persons pair_state !! 1%positive = Some alice) as H1 by reflexivity.
  assert (persons pair_state !! 2%positive = Some bob) as H2 by reflexivity.
  split; [exact Hne|]. split; [exact H1|]. split; [exact H2|].
  exact (setName_commutes pair_state 1%positive 2%positive alice bob "Ann" "Ben" Hne H1 H2).
Defined.

(** ** More on machine integers *)

Lemma wrap_mod a u : wrap a u mod 2 ^ int_bits a = u mod 2 ^ int_bits a.
Proof.
  unfold wrap. rewrite Zplus_mod_idemp_l. f_equal. lia.
Qed.

Lemma wrap_congr a u v :
  u mod 2 ^ int_bits a = v mod 2 ^ int_bits a → wrap a u = wrap a v.
Proof.
  intros H. unfold wrap. f_equal.
  by rewrite (Zminus_mod u), H, <- Zminus_mod.
Qed.

Lemma wrap_add_r a u v : wrap a (u + wrap a v) = wrap a (u + v).
Proof. apply wrap_congr. by rewrite Zplus_mod, wrap_mod, <- Zplus_mod. Qed.

Lemma wrap_mul_r a k u : wrap a (k * wrap a u) = wrap a (k * u).
Proof. apply wrap_congr. by rewrite Zmult_mod, wrap_mod, <- Zmult_mod. Qed.

Lemma iadd_swap a s x y : iadd a (iadd a s x) y = iadd a (iadd a s y) x.
Proof. unfold iadd. rewrite !wrap_add_l. f_equal. lia. Qed.

(** Adding [x] and then [-x] gives back what was there. *)
Lemma iadd_ineg a s x : in_range a s → iadd a (iadd a s x) (ineg a x) = s.
Proof.
  intros Hs. unfold iadd, ineg.
  rewrite wrap_add_l, wrap_add_r.
  replace (s + x + - x) with s by lia. by apply wrap_in_range.
Qed.

(** Scaling both the accumulator and the argument scales the new
    accumulator. *)
Lemma iadd_imul a k s x :
  iadd a (imul a k s) (imul a k x) = imul a k (iadd a s x).
Proof.
  unfold iadd, imul. rewrite wrap_add_l, wrap_add_r, wrap_mul_r.
  f_equal. lia.
Qed.

(** ** More on the closure *)

Lemma running_sums_in_range a s xs : Forall (in_range a) (running_sums a s xs).
Proof.
  revert s. induction xs as [|x xs IH]; intros s; simpl; constructor.
  - apply wrap_range.
  - apply IH.
Qed.

Lemma running_sums_last a s x xs :
  last (running_sums a s (x :: xs)) = Some (final_sum a s (x :: xs)).
Proof.
  revert s x. induction xs as [|y xs IH]; intros s x; [done|].
  change (running_sums a s (x :: y :: xs))
    with (iadd a s x :: running_sums a (iadd a s x) (y :: xs)).
  rewrite last_cons, IH. done.
Qed.

Lemma running_sums_imul a k s xs :
  running_sums a (imul a k s) (imul a k <$> xs)
  = imul a k <$> running_sums a s xs.
Proof.
  revert s. induction xs as [|x xs IH]; intros s; [done|].
  cbn [fmap list_fmap running_sums]. rewrite iadd_imul. f_equal. apply IH.
Qed.

Lemma final_sum_perm a s xs ys : xs ≡ₚ ys → final_sum a s xs = final_sum a s ys.
Proof.
  unfold final_sum. intros H. revert s.
  induction H as [|x xs ys _ IH|x y xs|xs ys zs _ IH1 _ IH2]; intros s; simpl.
  - done.
  - apply IH.
  - by rewrite iadd_swap.
  - by rewrite IH1.
Qed.

(** Calls of one closure: results and the exact final state. *)
Lemma call_all_state a f xs σ s :
  cells σ !! sum f = Some s →
  call_all a f xs σ
  = Ok (running_sums a s xs)
       (mkState (persons σ) (<[sum f := final_sum a s xs]> (cells σ)) (trace σ)).
Proof.
  revert σ s. induction xs as [|x xs IH]; intros σ s Hs.
  - cbn. unfold mret, M_ret. f_equal. rewrite insert_id by done. by destruct σ.
  - cbn [call_all running_sums]. unfold mbind, M_bind at 1.
    rewrite (adder_func_live _ _ _ _ _ Hs). unfold M_bind.
    rewrite (IH _ (iadd a s x)) by (cbn [cells]; apply lookup_insert_eq).
    cbn [persons cells trace]. by rewrite insert_insert_eq.
Qed.

(** X7: [adder()] never hands out a variable that a live closure already
    uses: the new closure's [sum] is a new variable holding 0, and every
    variable, person and trace entry that existed is left as it was. *)
Theorem adder_allocates_fresh (σ : state) :
  ∃ f σ1,
    adder σ = Ok f σ1 ∧
    ¬ live_closure σ f ∧
    cells σ1 !! sum f = Some 0 ∧
    (∀ g, live_closure σ g → sum g ≠ sum f ∧ cells σ1 !! sum g = cells σ !! sum g) ∧
    persons σ1 = persons σ ∧ trace σ1 = trace σ.
Proof.
  destruct (adder_fresh σ) as (l & Hl & Hadder).
  eexists _, _. split; [exact Hadder|]. cbn [sum cells persons trace].
  split; [intros [s Hs]; unfold sum in Hs; congruence|].
  split; [apply lookup_insert_eq|].
  split; [|done].
  intros g [s Hs].
  assert (sum g ≠ l) as Hne by (intros Heq; rewrite Heq in Hs; congruence).
  split; [done|]. by apply lookup_insert_ne.
Qed.

(** X8: calling a closure any number of times changes its own [sum] and
    nothing else: it returns one result per call, prints nothing, and
    leaves every person and every other captured variable alone. *)
Theorem closure_calls_frame (a : arch) (f : closure) (xs : list Z) (σ : state) :
  live_closure σ f →
  ∃ rs σ',
    call_all a f xs σ = Ok rs σ' ∧
    length rs = length xs ∧
    persons σ' = persons σ ∧ trace σ' = trace σ ∧
    ∀ l, l ≠ sum f → cells σ' !! l = cells σ !! l.
Proof.
  intros [s Hs]. eexists _, _. split; [by apply call_all_state|].
  split; [apply running_sums_length|]. cbn [persons cells trace].
  repeat split. intros l Hl. by apply lookup_insert_ne.
Qed.

Lemma closure_calls_frame_witness :
  live_closure pair_state (mkClosure 1%positive) ∧
  ∃ rs σ',
    call_all Int64 (mkClosure 1%positive) [1; 2; 3] pair_state = Ok rs σ' ∧
    length rs = 3%nat ∧
    persons σ' = persons pair_state ∧ trace σ' = [] ∧
    cells σ' !! 2%positive = Some (-10).
Proof.
  assert (live_closure pair_state (mkClosure 1%positive)) as H
    by (eexists; reflexivity).
  split; [exact H|].
  destruct (closure_calls_frame Int64 (mkClosure 1%positive) [1; 2; 3] pair_state H)
    as (rs & σ' & H1 & H2 & H3 & H4 & H5).
  exists rs, σ'. split; [exact H1|]. split; [exact H2|]. split; [exact H3|].
  split; [exact H4|]. rewrite H5 by discriminate. reflexivity.
Defined.

(** X9: whatever a closure is called with, each value it returns lies
    within the range of [int]. *)
Theorem closure_results_in_range (a : arch) (f : closure) (xs : list Z) (σ : state) :
  live_closure σ f →
  ∃ rs σ', call_all a f xs σ = Ok rs σ' ∧ Forall (in_range a) rs.
Proof.
  intros [s Hs]. eexists _, _. split; [by apply call_all_state|].
  apply running_sums_in_range.
Qed.

Lemma closure_results_in_range_witness :
  live_closure pair_state (mkClosure 1%positive) ∧
  ∃ rs σ',
    call_all Int32 (mkClosure 1%positive) [2147483647; 2147483647] pair_state
    = Ok rs σ' ∧ Forall (in_range Int32) rs.
Proof.
  assert (live_closure pair_state (mkClosure 1%positive)) as H
    by (eexists; reflexivity).
  split; [exact H|].
  exact (closure_results_in_range Int32 (mkClosure 1%positive)
           [2147483647; 2147483647] pair_state H).
Defined.

(** X11: the order of the arguments does not matter in the end: called
    with a permutation of the same arguments, a closure returns the same
    last value and ends in the same state. *)
Theorem closure_order_irrelevant (a : arch) (f : closure) (xs ys : list Z) (σ : state) :
  xs ≡ₚ ys → live_closure σ f →
  ∃ rs rs' σ',
    call_all a f xs σ = Ok rs σ' ∧
    call_all a f ys σ = Ok rs' σ' ∧
    last rs = last rs'.
Proof.
  intros Hperm [s Hs]. eexists _, _, _.
  split; [by apply call_all_state|].
  split; [rewrite (call_all_state _ _ _ _ _ Hs), (final_sum_perm a s xs ys Hperm); done|].
  destruct xs as [|x xs], ys as [|y ys].
  - done.
  - by apply Permutation_nil_cons in Hperm.
  - symmetry in Hperm. by apply Permutation_nil_cons in Hperm.
  - rewrite !running_sums_last. f_equal. by apply final_sum_perm.
Qed.

Lemma closure_order_irrelevant_witness :
  [1; 2; 3] ≡ₚ [3; 1; 2] ∧
  live_closure pair_state (mkClosure 1%positive) ∧
  ∃ rs rs' σ',
    call_all Int64 (mkClosure 1%positive) [1; 2; 3] pair_state = Ok rs σ' ∧
    call_all Int64 (mkClosure 1%positive) [3; 1; 2] pair_state = Ok rs' σ' ∧
    last rs = last rs'.
Proof.
  assert ([1; 2; 3] ≡ₚ [3; 1; 2]) as Hperm.
  { apply (Permutation_app_comm [1; 2] [3]). }
  assert (live_closure pair_state (mkClosure 1%positive)) as H
    by (eexists; reflexivity).
  split; [exact Hperm|]. split; [exact H|].
  exact (closure_order_irrelevant Int64 (mkClosure 1%positive) [1; 2; 3] [3; 1; 2]
           pair_state Hperm H).
Defined.

(** X12: calling a closure with [x] and then with [-x] undoes the first
    call, overflow or not: the second call returns the value [sum] had
    before, and the state is what it was. *)
Theorem closure_undo (a : arch) (f : closure) (x s : Z) (σ : state) :
  cells σ !! sum f = Some s → in_range a s →
  call_all a f [x; ineg a x] σ = Ok [iadd a s x; s] σ.
Proof.
  intros Hs Hr. rewrite (call_all_state _ _ _ _ _ Hs).
  cbn [running_sums final_sum foldl]. rewrite (iadd_ineg a s x Hr).
  rewrite insert_id by done. by destruct σ.
Qed.

Lemma closure_undo_witness :
  cells pair_state !! 1%positive = Some 5 ∧ in_range Int64 5 ∧
  call_all Int64 (mkClosure 1%positive)
    [9223372036854775807; ineg Int64 9223372036854775807] pair_state
  = Ok [iadd Int64 5 9223372036854775807; 5] pair_state.
Proof.
  assert (cells pair_state !! 1%positive = Some 5) as Hs by reflexivity.
  assert (in_range Int64 5) as Hr
    by (unfold in_range, int_min, int_max; simpl; lia).
  split; [exact Hs|]. split; [exact Hr|].
  exact (closure_undo Int64 (mkClosure 1%positive) 9223372036854775807 5
           pair_state Hs Hr).
Defined.

(** X13: of two closures fresh from [adder()], the one called with every
    argument multiplied by [k] returns the other's results multiplied by
    [k] (in [main], [neg(-2*i)] is always [-2] times [pos(i)]). *)
Theorem closure_scaling (a : arch) (k : Z) (xs : list Z) (σ : state) :
  ∃ pos σ1 neg σ2 rs σ3 σ4,
    adder σ = Ok pos σ1 ∧ adder σ1 = Ok neg σ2 ∧
    call_all a pos xs σ2 = Ok rs σ3 ∧
    call_all a neg (imul a k <$> xs) σ2 = Ok (imul a k <$> rs) σ4.
Proof.
  destruct (adder_fresh σ) as (l & _ & Hpos).
  destruct (adder_fresh (mkState (persons σ) (<[l := 0]> (cells σ)) (trace σ)))
    as (m & Hm & Hneg). cbn [persons cells trace] in Hm, Hneg.
  assert (l ≠ m) as Hne by (intros ->; by rewrite lookup_insert_eq in Hm).
  set (σ2 := mkState (persons σ) (<[m := 0]> (<[l := 0]> (cells σ))) (trace σ)) in *.
  assert (cells σ2 !! sum (mkClosure l) = Some 0) as Hl
    by (cbn; rewrite lookup_insert_ne by done; apply lookup_insert_eq).
  assert (cells σ2 !! sum (mkClosure m) = Some (imul a k 0)) as Hm'.
  { cbn. rewrite lookup_insert_eq. f_equal. unfold imul.
    rewrite Z.mul_0_r. symmetry. apply wrap_in_range.
    unfold in_range, int_min, int_max. destruct a; simpl; lia. }
  eexists (mkClosure l), _, (mkClosure m), σ2, _, _, _.
  split; [exact Hpos|]. split; [exact Hneg|].
  split; [by apply call_all_state|].
  rewrite (call_all_state _ _ _ _ _ Hm'). by rewrite running_sums_imul.
Qed.

(** ** More on the goroutine and the wait-group *)

(** From the [i]-th configuration of [stages] a step leads to the next
    one and nowhere else. *)
Lemma stages_next σ (i : nat) c c' :
  Sync.stages σ !! i = Some c → Sync.step c c' → Sync.stages σ !! S i = Some c'.
Proof.
  intros Hi Hstep.
  destruct i as [|[|[|[|[|[|[|?]]]]]]]; simpl in Hi; simplify_eq;
    inversion Hstep; subst; pick_goroutine;
    repeat match goal with
    | H : Sync.wg_add _ _ = _ |- _ => vm_compute in H; simplify_eq
    | H : Println _ _ = Ok _ _ |- _ => unfold Println in H; simplify_eq
    end;
    reflexivity.
Qed.

(** An execution of [n] steps ends in the [n]-th configuration. *)
Lemma nsteps_stages σ (n : nat) c :
  nsteps Sync.step n (Sync.init σ) c → Sync.stages σ !! n = Some c.
Proof.
  revert c. induction n as [|n IH]; intros c Hn.
  - by inversion Hn.
  - apply nsteps_inv_r in Hn as (c0 & Hn & Hstep).
    eapply stages_next; [by apply IH | done].
Qed.

Lemma stages_nsteps σ (n : nat) c :
  Sync.stages σ !! n = Some c → nsteps Sync.step n (Sync.init σ) c.
Proof.
  revert c. induction n as [|n IH]; intros c Hn.
  - simpl in Hn. simplify_eq. constructor.
  - destruct (Sync.stages σ !! n) as [c0|] eqn:H0.
    + eapply nsteps_r; [by apply IH | by eapply stages_step].
    + apply lookup_ge_None in H0. apply lookup_lt_Some in Hn. lia.
Qed.

(** X15: although any flow that can move may move next, lines 107-113
    leave the scheduler no choice: a reachable configuration has at most
    one successor. *)
Theorem Sync_deterministic (σ : state) (c c1 c2 : Sync.config) :
  Sync.reachable σ c → Sync.step c c1 → Sync.step c c2 → c1 = c2.
Proof.
  intros [i Hi]%reachable_stages%list_elem_of_lookup H1 H2.
  pose proof (stages_next _ _ _ _ Hi H1) as E1.
  pose proof (stages_next _ _ _ _ Hi H2) as E2.
  congruence.
Qed.

Lemma Sync_deterministic_witness :
  Sync.reachable empty_state (Sync.init empty_state) ∧
  Sync.step (Sync.init empty_state)
    (Sync.mkConfig Sync.AtGo [] 1 false empty_state [Sync.EvAdd 1]) ∧
  Sync.mkConfig Sync.AtGo [] 1 false empty_state [Sync.EvAdd 1]
  = Sync.mkConfig Sync.AtGo [] 1 false empty_state [Sync.EvAdd 1].
Proof.
  assert (Sync.reachable empty_state (Sync.init empty_state)) as Hr
    by apply rtc_refl.
  assert (Sync.step (Sync.init empty_state)
            (Sync.mkConfig Sync.AtGo [] 1 false empty_state [Sync.EvAdd 1])) as Hs
    by (by apply Sync.step_add).
  split; [exact Hr|]. split; [exact Hs|].
  exact (Sync_deterministic empty_state _ _ _ Hr Hs Hs).
Defined.

(** X16: lines 107-113 cannot run forever and [wg.Wait()] cannot return
    early: every execution has at most six steps, and [main] is past
    [wg.Wait()] exactly when all six have been taken. *)
Theorem Sync_six_steps (σ : state) (n : nat) (c : Sync.config) :
  nsteps Sync.step n (Sync.init σ) c →
  (n ≤ 6)%nat ∧ (Sync.pc c = Sync.PastWait ↔ n = 6%nat).
Proof.
  intros Hn%nsteps_stages.
  destruct n as [|[|[|[|[|[|[|?]]]]]]]; simpl in Hn; simplify_eq;
    (split; [lia|]); split; intros H; first [discriminate H | lia | done].
Qed.

Lemma Sync_six_steps_witness :
  nsteps Sync.step 6 (Sync.init empty_state) (Sync.final empty_state) ∧
  (6 ≤ 6)%nat ∧ (Sync.pc (Sync.final empty_state) = Sync.PastWait ↔ 6%nat = 6%nat).
Proof.
  assert (nsteps Sync.step 6 (Sync.init empty_state) (Sync.final empty_state)) as H
    by (by apply stages_nsteps).
  split; [exact H|].
  exact (Sync_six_steps empty_state 6 (Sync.final empty_state) H).
Defined.

(** X17: the goroutine section touches nothing but the console: in every
    reachable configuration the persons and the captured variables are
    those it started with, and the trace has grown by at most the one line
    of the goroutine. *)
Theorem Sync_store_untouched (σ : state) (c : Sync.config) :
  Sync.reachable σ c →
  persons (Sync.st c) = persons σ ∧
  cells (Sync.st c) = cells σ ∧
  (trace (Sync.st c) = trace σ ∨
   trace (Sync.st c) = (trace σ ++ [Console [VStr "Inside goroutine"]])%list).
Proof.
  intros Hin%reachable_stages.
  unfold Sync.stages, Sync.init, Sync.final in Hin.
  repeat (apply elem_of_cons in Hin as [-> | Hin]);
    try (by apply elem_of_nil in Hin); simpl; auto.
Qed.

Lemma Sync_store_untouched_witness :
  Sync.reachable pair_state (Sync.final pair_state) ∧
  persons (Sync.st (Sync.final pair_state)) = persons pair_state ∧
  cells (Sync.st (Sync.final pair_state)) = cells pair_state.
Proof.
  assert (Sync.reachable pair_state (Sync.final pair_state)) as H.
  { apply stages_finish. unfold Sync.stages. apply list_elem_of_here. }
  destruct (Sync_store_untouched pair_state _ H) as (Hp & Hc & _).
  split; [exact H|]. split; [exact Hp | exact Hc].
Defined.

(** ** More on the interfaces *)

Lemma ReadWriter_methods :
  Decl.interface_methods Decl.depth "ReadWriter"
  = [Decl.mkMethod "Write" [Decl.TBytes] [Decl.TInt; Decl.TError];
     Decl.mkMethod "Read" [Decl.TBytes] [Decl.TInt; Decl.TError]].
Proof. vm_compute. reflexivity. Qed.

Lemma Reader_methods :
  Decl.interface_methods Decl.depth "Reader"
  = [Decl.mkMethod "Read" [Decl.TBytes] [Decl.TInt; Decl.TError]].
Proof. vm_compute. reflexivity. Qed.

Lemma io_Reader_methods :
  Decl.interface_methods Decl.depth "io.Reader"
  = [Decl.mkMethod "Read" [Decl.TBytes] [Decl.TInt; Decl.TError]].
Proof. vm_compute. reflexivity. Qed.

(** X18: [ReadWriter] embeds [Reader]: whatever type implements
    [ReadWriter] also implements [Reader]. *)
Theorem ReadWriter_implies_Reader (t : Decl.ty) :
  Decl.implements t "ReadWriter" = true → Decl.implements t "Reader" = true.
Proof.
  unfold Decl.implements. rewrite ReadWriter_methods, Reader_methods.
  cbn [forallb]. intros H. by apply andb_true_iff in H as [_ H].
Qed.

Lemma ReadWriter_implies_Reader_witness :
  Decl.implements (Decl.TNamed "ReadWriter") "ReadWriter" = true ∧
  Decl.implements (Decl.TNamed "ReadWriter") "Reader" = true.
Proof.
  assert (Decl.implements (Decl.TNamed "ReadWriter") "ReadWriter" = true) as H
    by (vm_compute; reflexivity).
  split; [exact H | exact (ReadWriter_implies_Reader _ H)].
Defined.

(** X19: the [Reader] the file declares and [io.Reader] ask for the same
    method, so every type implements both or neither. *)
Theorem Reader_same_as_io_Reader (t : Decl.ty) :
  Decl.implements t "Reader" = Decl.implements t "io.Reader".
Proof.
  unfold Decl.implements. by rewrite Reader_methods, io_Reader_methods.
Qed.
